(** * Harappan-Script-PDF-Maker: the flow layout of [generate_pdf]

    A shallow embedding of [generate_pdf] (src/app.py, lines 7-76) and the
    properties of its index parser and of its line-wrap / page-break loop.

    Modelling conventions.
    - A Python [str] is a list of characters; characters range over the code
      points U+0000..U+00FF (the 8-bit [ascii] type read as Latin-1).
    - Python numbers are rationals [Q].  The two divisions of lines 50 and
      52 give the nearest binary64 number ([Binary64.binary64]) and raise on
      a zero divisor; sums are written as the code writes them.
    - The asset folder is a function from an index to what [os.path.exists]
      and [cv2.imread] find at [{index}.png].  [body] is the iteration in
      which [pdf.image] returns; [iterate] and [generate_pdf_call] add the
      exception that [pdf.image] raises on a file it cannot embed.
    - The [FPDF] object is the list of the calls made on it, in call order;
      [st.warning] / [st.error] calls are collected in a list of messages. *)

From Stdlib Require Import List Ascii String Bool Arith NArith ZArith QArith Lia Lqa.
From Stdlib Require Import Qpower Qabs.
From Stdlib Require Import DecimalString DecimalN.
Import ListNotations.

(** ** Python strings *)

Module PyStr.

Definition str := list ascii.

(** a string literal *)
Definition lit (s : string) : str := list_ascii_of_string s.

Definition code (c : ascii) : N := N_of_ascii c.

Definition in_range (lo hi : N) (c : ascii) : bool :=
  (lo <=? code c)%N && (code c <=? hi)%N.

(** [c.isspace()]: within Latin-1 the whitespace characters are
    U+0009..U+000D, U+001C..U+0020, U+0085 and U+00A0. *)
Definition isspace_char (c : ascii) : bool :=
  in_range 9 13 c || in_range 28 32 c || (code c =? 133)%N || (code c =? 160)%N.

(** the characters of the ASCII digits '0'..'9' *)
Definition isdecimal_char (c : ascii) : bool := in_range 48 57 c.

(** [c.isdigit()]: the ASCII digits and, within Latin-1, the superscript
    digits U+00B2, U+00B3 and U+00B9. *)
Definition isdigit_char (c : ascii) : bool :=
  isdecimal_char c || (code c =? 178)%N || (code c =? 179)%N || (code c =? 185)%N.

(** [s.isdigit()]: every character is a digit and there is at least one. *)
Definition isdigit (s : str) : bool :=
  match s with
  | [] => false
  | _ => forallb isdigit_char s
  end.

(** every character is an ASCII decimal digit and there is at least one *)
Definition isdecimal (s : str) : bool :=
  match s with
  | [] => false
  | _ => forallb isdecimal_char s
  end.

Fixpoint lstrip (s : str) : str :=
  match s with
  | c :: s' => if isspace_char c then lstrip s' else s
  | [] => []
  end.

Definition rstrip (s : str) : str := rev (lstrip (rev s)).

(** [s.strip()] *)
Definition strip (s : str) : str := rstrip (lstrip s).

(** [s.split(sep)] for a one-character separator: never an empty list *)
Fixpoint split (sep : ascii) (s : str) : list str :=
  match s with
  | [] => [[]]
  | c :: s' =>
      if Ascii.eqb c sep then [] :: split sep s'
      else match split sep s' with
           | tok :: toks => (c :: tok) :: toks
           | [] => [[c]]
           end
  end.

Definition digit_value (c : ascii) : N := (code c - 48)%N.

(** the value of a numeral read left to right, [acc] being the value of
    the digits already read *)
Fixpoint decimal_value (acc : N) (s : str) : N :=
  match s with
  | [] => acc
  | c :: s' => decimal_value (10 * acc + digit_value c)%N s'
  end.

(** the most digits that [int] converts, [sys.get_int_max_str_digits()]
    as the interpreter starts *)
Definition int_max_str_digits : N := 4300.

Definition within_digit_limit (s : str) : bool :=
  (N.of_nat (List.length s) <=? int_max_str_digits)%N.

(** [int(s)] on the strings that reach it in [generate_pdf], those that
    [isdigit] accepts: the value of an ASCII numeral of at most
    [int_max_str_digits] digits, leading zeros counted; [None] stands for
    the [ValueError] that [int] raises on a superscript digit and on a
    longer numeral. *)
Definition int (s : str) : option N :=
  if isdecimal s then
    if within_digit_limit s then Some (decimal_value 0 s) else None
  else None.

End PyStr.

Import PyStr.

(** ** Index parsing (lines 27-34) *)

(** what the user is shown *)
Inductive Message : Type :=
| NoValidIndices            (* st.warning, line 30 *)
| InvalidFormat             (* st.error, line 33 *)
| CouldNotRead (index : N)  (* st.warning, line 54 *)
| NotFound (index : N).     (* st.warning, line 73 *)

(** [[int(s) for s in tokens if s.isdigit()]]: [None] when an [int(s)]
    raises [ValueError], which ends the comprehension at once *)
Fixpoint comprehension (tokens : list str) : option (list N) :=
  match tokens with
  | [] => Some []
  | s :: rest =>
      if isdigit s then
        match int s with
        | None => None
        | Some n =>
            match comprehension rest with
            | None => None
            | Some ns => Some (n :: ns)
            end
        end
      else comprehension rest
  end.

Definition underscore : ascii := "_"%char.

Definition tokens_of (input_string : str) : list str :=
  split underscore (strip input_string).

(** the [try] block of lines 27-34: the parsed indices, or the message
    shown before [return None] *)
Definition parse_indices (input_string : str) : Message + list N :=
  match comprehension (tokens_of input_string) with
  | None => inl InvalidFormat
  | Some [] => inl NoValidIndices
  | Some indices => inr indices
  end.

(** ** Numbers *)

(** [a > b] *)
Definition Qgtb (a b : Q) : bool := negb (Qle_bool a b).

(** Floating-point division: the quotient is rounded to the nearest
    number with a significand of 53 bits, ties to even.  The exponent is not
    bounded: the quotients of pixel counts and page lengths are far from
    overflow and underflow. *)
Module Binary64.

(** [n / d] rounded to the nearest integer, ties to even, for [d > 0] *)
Definition round_half_even (n d : Z) : Z :=
  let m := (n / d)%Z in
  match (2 * (n mod d) ?= d)%Z with
  | Lt => m
  | Gt => (m + 1)%Z
  | Eq => if Z.even m then m else (m + 1)%Z
  end.

(** numerator and denominator of [(n / d) / 2 ^ e] *)
Definition scaled_num (n : positive) (e : Z) : Z :=
  (Zpos n * 2 ^ Z.max 0 (- e))%Z.
Definition scaled_den (d : positive) (e : Z) : Z :=
  (Zpos d * 2 ^ Z.max 0 e)%Z.

(** the exponent [e] of the last bit of the significand:
    [2 ^ 52 <= (n / d) / 2 ^ e < 2 ^ 53] *)
Definition exponent (n d : positive) : Z :=
  let e := (Z.log2 (Zpos n) - Z.log2 (Zpos d) - 53)%Z in
  if (scaled_num n e <? 2 ^ 53 * scaled_den d e)%Z then e else (e + 1)%Z.

Definition nearest (n d : positive) : Q :=
  let e := exponent n d in
  Qred (inject_Z (round_half_even (scaled_num n e) (scaled_den d e)) * 2 ^ e).

(** the binary64 number nearest to [q] *)
Definition binary64 (q : Q) : Q :=
  match Qnum (Qred q) with
  | Z0 => 0
  | Zpos n => nearest n (Qden (Qred q))
  | Zneg n => - nearest n (Qden (Qred q))
  end.

(** half the distance between 1 and the next binary64 number, [2 ^ -53] *)
Definition unit_roundoff : Q := 1 # 9007199254740992.

End Binary64.

Import Binary64.

(** [a / b] on an [int] or [float] [a] and [b]; [None] stands for
    [ZeroDivisionError] *)
Definition py_div (a b : Q) : option Q :=
  if Qeq_bool b 0 then None else Some (binary64 (a / b)).

(** [max(a, b)]: the first argument unless the second is greater *)
Definition py_max (a b : Q) : Q := if Qgtb b a then b else a.

Definition Q_of_N (n : N) : Q := inject_Z (Z.of_N n).

(** ** The layout loop (lines 36-76) *)

Record LayoutParameters : Type := {
  x_start : Q;
  y_start : Q;
  max_width : Q;
  max_height : Q;
  image_width : Q;
  h_gap : Q;
  v_gap : Q
}.

(** what [cv2.imread] makes of an existing path: [None] (so that
    [img.shape] raises), or an array of shape [(h, w, 3)] *)
Inductive File : Type :=
| Undecodable
| Pixels (h w : N).

(** the calls made on the [FPDF] object *)
Inductive PdfCall : Type :=
| add_page
| image (index : N) (x y w h : Q).

(** the variables of the loop, the document and the messages shown *)
Record State : Type := {
  x : Q;
  y : Q;
  line_height : Q;
  pdf : list PdfCall;
  shown : list Message
}.

(** the value returned ([None], or the document that is serialised) and
    the messages shown *)
Record Outcome : Type := {
  returned : option (list PdfCall);
  messages : list Message
}.

Section Layout.

(** [folder index] is [None] when [{index}.png] does not exist *)
Variable folder : N -> option File.
Variable p : LayoutParameters.

(** lines 48-52: the rendered [(new_width, new_height)], or [None] when
    an exception is raised *)
Definition measure (img : File) : option (Q * Q) :=
  match img with
  | Undecodable => None
  | Pixels h w =>
      match py_div (Q_of_N w) (Q_of_N h) with
      | None => None
      | Some aspect_ratio =>
          let new_width := image_width p in
          match py_div new_width aspect_ratio with
          | None => None
          | Some new_height => Some (new_width, new_height)
          end
      end
  end.

(** lines 58-61 *)
Definition line_wrap (st : State) (new_width : Q) : State :=
  if Qgtb (x st + new_width) (x_start p + max_width p) then
    {| x := x_start p;
       y := y st + (line_height st + v_gap p);
       line_height := 0;
       pdf := pdf st;
       shown := shown st |}
  else st.

(** lines 64-67 *)
Definition page_break (st : State) (new_height : Q) : State :=
  if Qgtb (y st + new_height) (y_start p + max_height p) then
    {| x := x_start p;
       y := y_start p;
       line_height := 0;
       pdf := pdf st ++ [add_page];
       shown := shown st |}
  else st.

(** lines 69-71 *)
Definition place (st : State) (index : N) (new_width new_height : Q) : State :=
  {| x := x st + (new_width + h_gap p);
     y := y st;
     line_height := py_max (line_height st) new_height;
     pdf := pdf st ++ [image index (x st) (y st) new_width new_height];
     shown := shown st |}.

Definition warn (st : State) (m : Message) : State :=
  {| x := x st;
     y := y st;
     line_height := line_height st;
     pdf := pdf st;
     shown := shown st ++ [m] |}.

(** one iteration of the [for] loop, lines 43-73 *)
Definition body (st : State) (index : N) : State :=
  match folder index with
  | Some img =>
      match measure img with
      | None => warn st (CouldNotRead index)
      | Some (new_width, new_height) =>
          let st1 := line_wrap st new_width in
          let st2 := page_break st1 new_height in
          place st2 index new_width new_height
      end
  | None => warn st (NotFound index)
  end.

(** lines 36-40 *)
Definition start : State :=
  {| x := x_start p;
     y := y_start p;
     line_height := 0;
     pdf := [add_page];
     shown := [] |}.

(** lines 42-73 *)
Definition layout (indices : list N) : State :=
  fold_left body indices start.

Definition generate_pdf (input_string : str) : Outcome :=
  match parse_indices input_string with
  | inl m => {| returned := None; messages := [m] |}
  | inr indices =>
      let st := layout indices in
      {| returned := Some (pdf st); messages := shown st |}
  end.

End Layout.

(** ** Vocabulary of the properties *)

(** the index is placed: its file exists and can be measured *)
Definition readable (folder : N -> option File) (p : LayoutParameters)
    (index : N) : bool :=
  match folder index with
  | Some img => match measure p img with Some _ => true | None => false end
  | None => false
  end.

(** the message shown for an index that is not placed *)
Definition diagnostic (folder : N -> option File) (index : N) : Message :=
  match folder index with
  | Some _ => CouldNotRead index
  | None => NotFound index
  end.

Definition is_image (c : PdfCall) : bool :=
  match c with
  | image _ _ _ _ _ => true
  | add_page => false
  end.

Definition is_add_page (c : PdfCall) : bool := negb (is_image c).

(** the placements of a document, and its number of pages *)
Definition placements (calls : list PdfCall) : list PdfCall := filter is_image calls.
Definition pages (calls : list PdfCall) : nat :=
  List.length (filter is_add_page calls).

(** the indices placed, in the order of their placement *)
Definition placed_indices (calls : list PdfCall) : list N :=
  flat_map (fun c => match c with
                     | image index _ _ _ _ => [index]
                     | add_page => []
                     end) calls.



(** two states that differ at most in the messages shown *)
Definition same_layout (s t : State) : Prop :=
  x s = x t /\ y s = y t /\ line_height s = line_height t /\ pdf s = pdf t.

(** ** Sample data *)

(** the defaults of the sidebar (lines 96-105) *)
Definition defaults : LayoutParameters :=
  {| x_start := 10; y_start := 10; max_width := 190; max_height := 277;
     image_width := 10; h_gap := 5; v_gap := 5 |}.




(** a folder of images half as tall as wide *)
Definition flats (_ : N) : option File := Some (Pixels 10 20).

(** an empty folder *)
Definition nothing (_ : N) : option File := None.

(** the folder of the repository: glyphs 1..330, here 20 x 30 pixels *)
Definition glyphs (index : N) : option File :=
  if ((1 <=? index) && (index <=? 330))%N then Some (Pixels 30 20) else None.

Definition at_cursor (cx cy lh : Q) : State :=
  {| x := cx; y := cy; line_height := lh; pdf := [add_page]; shown := [] |}.




(** U+00B2, superscript two *)
Definition superscript_two : ascii := ascii_of_N 178.

(** ** Formatting indices and paths (line 43) *)

(** [s.isascii()] *)
Definition isascii (s : str) : bool :=
  forallb (fun c => (code c <? 128)%N) s.

(** [sep.join(tokens)] *)
Fixpoint join (sep : ascii) (tokens : list str) : str :=
  match tokens with
  | [] => []
  | tok :: rest =>
      match rest with
      | [] => tok
      | _ :: _ => tok ++ sep :: join sep rest
      end
  end.

(** [str(index)], as the f-string of line 43 writes a non-negative
    integer: its decimal digits, without padding *)
Definition format_index (index : N) : str :=
  list_ascii_of_string (NilZero.string_of_uint (N.to_uint index)).

(** the input format of the docstring, "_i_j_k..." *)
Definition format_indices (indices : list N) : str :=
  flat_map (fun index => underscore :: format_index index) indices.

Definition slash : ascii := "/"%char.

Definition startswith_slash (s : str) : bool :=
  match s with
  | c :: _ => Ascii.eqb c slash
  | [] => false
  end.

(** [os.path.join(a, b)] with the POSIX separator *)
Definition os_path_join (a b : str) : str :=
  if startswith_slash b then b
  else match a with
       | [] => b
       | _ :: _ => if startswith_slash (rev a) then a ++ b else a ++ slash :: b
       end.

(** line 43 *)
Definition image_path (image_folder : str) (index : N) : str :=
  os_path_join image_folder (format_index index ++ lit ".png").

(** ** Geometry of a document *)

(** the image lies between the left and the right edge of the writable
    region *)
Definition inside_x (p : LayoutParameters) (c : PdfCall) : Prop :=
  match c with
  | image _ cx _ w _ => x_start p <= cx /\ cx + w <= x_start p + max_width p
  | add_page => True
  end.








(** ** The button handler (lines 96-143) *)


(** ** Files that [pdf.image] rejects (line 69) *)

(** a file as its two readers see it: what [cv2.imread] returns, and
    whether [pdf.image] accepts the file; the two do not agree on every
    PNG file *)
Record Asset : Type := {
  decoded : File;
  embeds : bool
}.

(** the folder as lines 45-52 see it *)
Definition files (assets : N -> option Asset) (index : N) : option File :=
  match assets index with
  | Some a => Some (decoded a)
  | None => None
  end.

(** the call of line 69 raises: the image was measured and [pdf.image]
    rejects the file *)
Definition image_raises (assets : N -> option Asset) (p : LayoutParameters)
    (index : N) : bool :=
  match assets index with
  | Some a =>
      match measure p (decoded a) with
      | Some _ => negb (embeds a)
      | None => false
      end
  | None => false
  end.

(** how the loop ends: it runs through the indices, or the call of line 69
    raises at an index, after the messages shown until then; line 69 is
    outside the [try] block and nothing catches what it raises *)
Inductive Run : Type :=
| Completed (st : State)
| Raised (index : N) (shown_before : list Message).

(** lines 42-73; [body] is the iteration in which [pdf.image] returns *)
Fixpoint iterate (assets : N -> option Asset) (p : LayoutParameters)
    (indices : list N) (st : State) : Run :=
  match indices with
  | [] => Completed st
  | index :: rest =>
      if image_raises assets p index then Raised index (shown st)
      else iterate assets p rest (body (files assets) p st index)
  end.

(** how a call of [generate_pdf] ends *)
Inductive Call : Type :=
| Returns (r : Outcome)
| Raises (index : N) (shown_before : list Message).

(** lines 26-76 with the exception of line 69 *)
Definition generate_pdf_call (assets : N -> option Asset)
    (p : LayoutParameters) (input_string : str) : Call :=
  match parse_indices input_string with
  | inl m => Returns {| returned := None; messages := [m] |}
  | inr indices =>
      match iterate assets p indices (start p) with
      | Completed st =>
          Returns {| returned := Some (pdf st); messages := shown st |}
      | Raised index shown_before => Raises index shown_before
      end
  end.

(** a folder whose files [cv2.imread] decodes and [pdf.image] rejects *)
Definition rejected (_ : N) : option Asset :=
  Some {| decoded := Pixels 30 20; embeds := false |}.

(** a folder whose files [cv2.imread] does not decode *)
Definition undecodable (_ : N) : option Asset :=
  Some {| decoded := Undecodable; embeds := false |}.

(** the glyphs, all accepted by [pdf.image], except that 5.png is rejected *)
Definition glyphs_but_five (index : N) : option Asset :=
  match glyphs index with
  | Some img => Some {| decoded := img; embeds := negb (index =? 5)%N |}
  | None => None
  end.

(** what the page shows after the button is pressed *)
Inductive Notice : Type :=
| PleaseEnter               (* st.warning, line 118 *)
| FromCore (m : Message)    (* shown inside generate_pdf *)
| Success                   (* st.success, line 135 *)
| Traceback (index : N).    (* the exception of line 69, which ends the run *)

Record Screen : Type := {
  notices : list Notice;
  download : option (list PdfCall)   (* the data of the download button *)
}.

(** lines 116-143; the serialised document is never an empty byte string,
    so [if pdf_data] holds exactly when a document was returned *)
Definition on_generate (assets : N -> option Asset) (p : LayoutParameters)
    (input_text : str) : Screen :=
  match input_text with
  | [] => {| notices := [PleaseEnter]; download := None |}
  | _ :: _ =>
      match generate_pdf_call assets p input_text with
      | Returns r =>
          match returned r with
          | Some pdf_data =>
              {| notices := map FromCore (messages r) ++ [Success];
                 download := Some pdf_data |}
          | None =>
              {| notices := map FromCore (messages r); download := None |}
          end
      | Raises index shown_before =>
          {| notices := map FromCore shown_before ++ [Traceback index];
             download := None |}
      end
  end.

(** ** Comparisons and arithmetic *)


Lemma Qgtb_false (a b : Q) : Qgtb a b = false <-> a <= b.
Proof.
  unfold Qgtb. rewrite negb_false_iff. apply Qle_bool_iff.
Qed.

(** ** Rounding *)

Lemma round_half_even_near n d :
  (0 < d)%Z -> (Z.abs (2 * (round_half_even n d * d) - 2 * n) <= d)%Z.
Proof.
  intro Hd. unfold round_half_even.
  pose proof (Z.div_mod n d ltac:(lia)) as E.
  pose proof (Z.mod_pos_bound n d Hd) as B.
  destruct (2 * (n mod d) ?= d)%Z eqn:C.
  - apply Z.compare_eq in C. destruct (Z.even (n / d)); nia.
  - rewrite Z.compare_lt_iff in C. nia.
  - rewrite Z.compare_gt_iff in C. nia.
Qed.

Lemma scaled_pos_num n e : (0 < scaled_num n e)%Z.
Proof. unfold scaled_num. pose proof (Z.pow_pos_nonneg 2 (Z.max 0 (- e))). lia. Qed.

Lemma scaled_pos_den d e : (0 < scaled_den d e)%Z.
Proof. unfold scaled_den. pose proof (Z.pow_pos_nonneg 2 (Z.max 0 e)). lia. Qed.

(** the scaled ratio is the ratio divided by 2^e *)
Lemma scaled_ratio n d e :
  (scaled_num n e * Zpos d * 2 ^ Z.max 0 e = scaled_den d e * Zpos n * 2 ^ Z.max 0 (- e))%Z.
Proof. unfold scaled_num, scaled_den. ring. Qed.

Lemma scaled_lower n d :
  let e := (Z.log2 (Zpos n) - Z.log2 (Zpos d) - 53)%Z in
  (2 ^ 52 * scaled_den d e < scaled_num n e)%Z.
Proof.
  intro e. unfold scaled_num, scaled_den.
  pose proof (Z.log2_spec (Zpos n) ltac:(lia)) as [Hn _].
  pose proof (Z.log2_spec (Zpos d) ltac:(lia)) as [_ Hd].
  pose proof (Z.log2_nonneg (Zpos n)) as Ln.
  pose proof (Z.log2_nonneg (Zpos d)) as Ld.
  set (ln := Z.log2 (Zpos n)) in *. set (ld := Z.log2 (Zpos d)) in *.
  assert (Hpow : (2 ^ 52 * 2 ^ Z.succ ld * 2 ^ Z.max 0 e = 2 ^ ln * 2 ^ Z.max 0 (- e))%Z).
  { rewrite <- !Z.pow_add_r by lia. f_equal. unfold e. lia. }
  pose proof (Z.pow_pos_nonneg 2 (Z.max 0 e) ltac:(lia) ltac:(lia)).
  pose proof (Z.pow_pos_nonneg 2 (Z.max 0 (- e)) ltac:(lia) ltac:(lia)).
  nia.
Qed.

Lemma exponent_lower n d :
  (2 ^ 52 * scaled_den d (exponent n d) <= scaled_num n (exponent n d))%Z.
Proof.
  unfold exponent.
  set (e := (Z.log2 (Zpos n) - Z.log2 (Zpos d) - 53)%Z).
  pose proof (scaled_lower n d) as L. cbv zeta in L. fold e in L.
  destruct (scaled_num n e <? 2 ^ 53 * scaled_den d e)%Z eqn:C; [lia|].
  apply Z.ltb_ge in C.
  unfold scaled_num, scaled_den in *.
  destruct (Z.le_gt_cases 0 e) as [He|He].
  - rewrite (Z.max_r 0 (e + 1)), (Z.max_l 0 (- (e + 1))) by lia.
    rewrite (Z.max_r 0 e), (Z.max_l 0 (- e)) in C by lia.
    rewrite Z.pow_add_r by lia. change (2 ^ 0)%Z with 1%Z in *.
    change (2 ^ 1)%Z with 2%Z. change (2 ^ 53)%Z with (2 * 2 ^ 52)%Z in C. lia.
  - rewrite (Z.max_l 0 (e + 1)), (Z.max_r 0 (- (e + 1))) by lia.
    rewrite (Z.max_l 0 e), (Z.max_r 0 (- e)) in C by lia.
    replace (- e)%Z with (- (e + 1) + 1)%Z in C by lia.
    rewrite Z.pow_add_r in C by lia.
    change (2 ^ 0)%Z with 1%Z in *.
    change (2 ^ 1)%Z with 2%Z in C. change (2 ^ 53)%Z with (2 * 2 ^ 52)%Z in C. lia.
Qed.

Lemma two_power (e : Z) :
  (2 ^ e)%Q * inject_Z (2 ^ Z.max 0 (- e)) == inject_Z (2 ^ Z.max 0 e).
Proof.
  destruct (Z.le_gt_cases 0 e) as [He|He].
  - rewrite (Z.max_r 0 e), (Z.max_l 0 (- e)) by lia.
    change (2 ^ 0)%Z with 1%Z. rewrite Zpower_Qpower by lia.
    change (inject_Z 2) with 2. change (inject_Z 1) with 1. ring.
  - rewrite (Z.max_l 0 e), (Z.max_r 0 (- e)) by lia.
    change (2 ^ 0)%Z with 1%Z.
    rewrite Zpower_Qpower by lia. change (inject_Z 2) with 2.
    rewrite Qpower_opp. change (inject_Z 1) with 1.
    apply Qmult_inv_r.
    apply Qpower_not_0. discriminate.
Qed.

Lemma two_power_pos (e : Z) : 0 < (2 ^ e)%Q.
Proof. apply Qpower_0_lt. reflexivity. Qed.

Lemma inject_Z_pos z : (0 < z)%Z -> 0 < inject_Z z.
Proof. intro H. change 0 with (inject_Z 0). now rewrite <- Zlt_Qlt. Qed.

Lemma nearest_close n d :
  (Zpos n # d) * (1 - unit_roundoff) <= nearest n d <= (Zpos n # d) * (1 + unit_roundoff).
Proof.
  unfold nearest. rewrite Qred_correct.
  set (e := exponent n d).
  pose proof (exponent_lower n d) as L. fold e in L.
  pose proof (scaled_pos_den d e) as Dpos.
  pose proof (scaled_pos_num n e) as Npos.
  pose proof (round_half_even_near (scaled_num n e) (scaled_den d e) Dpos) as R.
  pose proof (scaled_ratio n d e) as S.
  set (N := scaled_num n e) in *. set (D := scaled_den d e) in *.
  set (m := round_half_even N D) in *.
  set (t := (2 ^ e)%Q). pose proof (two_power_pos e) as Tpos. fold t in Tpos.
  set (a := inject_Z N). set (b := inject_Z D). set (qm := inject_Z m).
  assert (Hb : 0 < b) by (now apply inject_Z_pos).
  assert (Ha : inject_Z (2 ^ 52) * b <= a).
  { unfold a, b. rewrite <- inject_Z_mult. now rewrite <- Zle_Qle. }
  assert (Hm : 2 * (qm * b) - 2 * a <= b /\ 2 * a - 2 * (qm * b) <= b).
  { assert (H1 : inject_Z (2 * (m * D)) <= inject_Z (2 * N + D))
      by (rewrite <- Zle_Qle; lia).
    assert (H2 : inject_Z (2 * N) <= inject_Z (2 * (m * D) + D))
      by (rewrite <- Zle_Qle; lia).
    rewrite ?inject_Z_plus, ?inject_Z_mult in H1, H2.
    change (inject_Z 2) with 2 in H1, H2. fold a b qm in H1, H2.
    split; lra. }
  (* the ratio *)
  assert (Hq : (Zpos n # d) == a / b * t).
  { pose proof (two_power e) as P. fold t in P.
    assert (Hu : 0 < inject_Z (2 ^ Z.max 0 (- e))).
    { apply inject_Z_pos. apply Z.pow_pos_nonneg; lia. }
    assert (E : inject_Z N * inject_Z (Zpos d) * inject_Z (2 ^ Z.max 0 e)
                == inject_Z D * inject_Z (Zpos n) * inject_Z (2 ^ Z.max 0 (- e))).
    { rewrite <- !inject_Z_mult. now rewrite S. }
    fold a b in E. rewrite <- P in E.
    rewrite (Qmake_Qdiv (Zpos n) d).
    set (u := inject_Z (2 ^ Z.max 0 (- e))) in *.
    set (nn := inject_Z (Zpos n)) in *. set (dd := inject_Z (Zpos d)) in *.
    assert (Hdd : 0 < dd) by (apply inject_Z_pos; lia).
    assert (Hbn : ~ b == 0) by (intro Z0; rewrite Z0 in Hb; discriminate).
    assert (Hdn : ~ dd == 0) by (intro Z0; rewrite Z0 in Hdd; discriminate).
    assert (E2 : a * dd * t == b * nn).
    { apply (Qmult_inj_r _ _ u); [intro Z0; rewrite Z0 in Hu; discriminate|].
      rewrite <- E. ring. }
    setoid_replace (nn / dd) with ((b * nn) / (b * dd)) by (field; split; assumption).
    rewrite <- E2. field. split; assumption. }
  assert (Hs : a == a / b * b).
  { field. intro Z0. rewrite Z0 in Hb. discriminate. }
  set (s := a / b) in *.
  assert (Bs : s * (1 - unit_roundoff) <= qm <= s * (1 + unit_roundoff)).
  { destruct Hm as [Hm1 Hm2].
    change (inject_Z (2 ^ 52)) with (4503599627370496 # 1) in Ha.
    split; apply (Qmult_le_r _ _ b Hb).
    - setoid_replace (s * (1 - unit_roundoff) * b) with (s * b * (1 - unit_roundoff)) by ring.
      rewrite <- Hs. unfold unit_roundoff. lra.
    - setoid_replace (s * (1 + unit_roundoff) * b) with (s * b * (1 + unit_roundoff)) by ring.
      rewrite <- Hs. unfold unit_roundoff. lra. }
  rewrite Hq. destruct Bs as [B1 B2]. split.
  - setoid_replace (s * t * (1 - unit_roundoff)) with (s * (1 - unit_roundoff) * t) by ring.
    apply Qmult_le_compat_r; [exact B1|now apply Qlt_le_weak].
  - setoid_replace (s * t * (1 + unit_roundoff)) with (s * (1 + unit_roundoff) * t) by ring.
    apply Qmult_le_compat_r; [exact B2|now apply Qlt_le_weak].
Qed.

Lemma binary64_eq q1 q2 : q1 == q2 -> binary64 q1 = binary64 q2.
Proof.
  intro H. unfold binary64. now rewrite (Qred_complete _ _ H).
Qed.

Lemma binary64_zero q : q == 0 -> binary64 q = 0.
Proof.
  intro H. now rewrite (binary64_eq _ _ H).
Qed.

Lemma binary64_close q :
  0 < q ->
  q * (1 - unit_roundoff) <= binary64 q <= q * (1 + unit_roundoff).
Proof.
  intro H. unfold binary64.
  pose proof (Qred_correct q) as E.
  destruct (Qred q) as [[|n|n] d]; cbn [Qnum Qden].
  - rewrite <- E in H. discriminate.
  - rewrite <- E. apply nearest_close.
  - rewrite <- E in H. discriminate.
Qed.

Lemma binary64_pos q : 0 < q -> 0 < binary64 q.
Proof.
  intro H. destruct (binary64_close q H) as [L _].
  eapply Qlt_le_trans; [|exact L].
  apply Qmult_lt_0_compat; [exact H|reflexivity].
Qed.

Lemma py_div_some (a b : Q) :
  ~ b == 0 -> py_div a b = Some (binary64 (a / b)).
Proof.
  intro H. unfold py_div.
  destruct (Qeq_bool b 0) eqn:E; [|reflexivity].
  apply Qeq_bool_iff in E. contradiction.
Qed.

Lemma py_div_zero (a b : Q) : b == 0 -> py_div a b = None.
Proof.
  intro H. unfold py_div. apply Qeq_bool_iff in H. now rewrite H.
Qed.

Lemma py_max_ge_r (a b : Q) : b <= py_max a b.
Proof.
  unfold py_max. destruct (Qgtb b a) eqn:E.
  - apply Qle_refl.
  - now apply Qgtb_false in E.
Qed.

Lemma Q_of_N_zero (n : N) : Q_of_N n == 0 <-> n = 0%N.
Proof.
  unfold Q_of_N, Qeq; simpl. split; intro H; lia.
Qed.

Lemma Q_of_N_pos (n : N) : (0 < n)%N -> 0 < Q_of_N n.
Proof.
  intro H. unfold Q_of_N, Qlt; simpl. lia.
Qed.

(** ** One iteration *)

Section Iteration.

Variable folder : N -> option File.
Variable p : LayoutParameters.


Lemma measure_width img new_width new_height :
  measure p img = Some (new_width, new_height) -> new_width = image_width p.
Proof.
  destruct img as [|h w]; unfold measure; [discriminate|].
  destruct (py_div (Q_of_N w) (Q_of_N h)); [|discriminate].
  destruct (py_div (image_width p) q); [|discriminate].
  now intros [= <- _].
Qed.

Lemma measure_pixels h w :
  (0 < h)%N -> (0 < w)%N ->
  measure p (Pixels h w) =
    Some (image_width p,
          binary64 (image_width p / binary64 (Q_of_N w / Q_of_N h))).
Proof.
  intros Hh Hw. unfold measure.
  pose proof (Q_of_N_pos _ Hh) as Hh'. pose proof (Q_of_N_pos _ Hw) as Hw'.
  rewrite py_div_some by (intro E; rewrite E in Hh'; discriminate).
  rewrite py_div_some; [reflexivity|].
  intro E.
  assert (Hpos : 0 < binary64 (Q_of_N w / Q_of_N h)).
  { apply binary64_pos. unfold Qdiv.
    apply Qmult_lt_0_compat; [assumption|].
    now apply Qinv_lt_0_compat. }
  rewrite E in Hpos. discriminate.
Qed.

Lemma measure_zero_height w : measure p (Pixels 0 w) = None.
Proof.
  unfold measure. now rewrite py_div_zero by reflexivity.
Qed.

Lemma measure_zero_width h : measure p (Pixels h 0) = None.
Proof.
  unfold measure.
  destruct (py_div (Q_of_N 0) (Q_of_N h)) as [r|] eqn:E; [|reflexivity].
  unfold py_div in E. destruct (Qeq_bool (Q_of_N h) 0); [discriminate|].
  injection E as <-.
  rewrite py_div_zero; [reflexivity|].
  rewrite binary64_zero; [reflexivity|].
  unfold Qdiv. apply Qmult_0_l.
Qed.

End Iteration.

(** ** Line wrap and page break *)

Section Breaks.

Variable folder : N -> option File.
Variable p : LayoutParameters.







End Breaks.



(** ** Rendered size *)

Section RenderedSize.

Variable folder : N -> option File.
Variable p : LayoutParameters.

Lemma aspect_formula (W h w : Q) :
  0 < h -> 0 < w -> W / (w / h) == W * h / w.
Proof.
  intros Hh Hw. field. split; intro E.
  - rewrite E in Hw. discriminate.
  - rewrite E in Hh. discriminate.
Qed.



End RenderedSize.



(** ** Skipped indices *)

Section Skipping.

Variable folder : N -> option File.
Variable p : LayoutParameters.

Lemma readable_false index :
  readable folder p index = false <->
  folder index = None
  \/ exists img, folder index = Some img /\ measure p img = None.
Proof.
  unfold readable. destruct (folder index) as [img|].
  - destruct (measure p img) as [r|] eqn:E; split.
    + discriminate.
    + intros [H|(img' & H & Hm)]; [discriminate|].
      injection H as <-. congruence.
    + intros _. right. now exists img.
    + reflexivity.
  - split; auto.
Qed.

Lemma body_skipped st index :
  readable folder p index = false ->
  body folder p st index = warn st (diagnostic folder index).
Proof.
  unfold readable, body, diagnostic.
  destruct (folder index) as [img|]; [|reflexivity].
  destruct (measure p img) as [[nw nh]|]; [discriminate|reflexivity].
Qed.

Lemma same_layout_refl st : same_layout st st.
Proof. unfold same_layout; auto. Qed.

Lemma same_layout_warn st m : same_layout (warn st m) st.
Proof. unfold same_layout; simpl; auto. Qed.

Lemma same_layout_trans s t u :
  same_layout s t -> same_layout t u -> same_layout s u.
Proof.
  unfold same_layout. intros (-> & -> & -> & ->) (-> & -> & -> & ->). auto.
Qed.

Lemma same_layout_body s t index :
  same_layout s t ->
  same_layout (body folder p s index) (body folder p t index).
Proof.
  intros (Hx & Hy & Hl & Hp). unfold body.
  destruct (folder index) as [img|].
  - destruct (measure p img) as [[nw nh]|].
    + unfold place, page_break, line_wrap. rewrite Hx, Hy, Hl.
      destruct (Qgtb (x t + nw) _); simpl.
      * destruct (Qgtb _ _); simpl; unfold same_layout; simpl;
          rewrite ?Hp; auto.
      * rewrite Hy. destruct (Qgtb _ _); simpl; unfold same_layout; simpl;
          rewrite ?Hx, ?Hy, ?Hl, ?Hp; auto.
    + unfold same_layout; simpl; auto.
  - unfold same_layout; simpl; auto.
Qed.

Lemma same_layout_loop indices : forall s t,
  same_layout s t ->
  same_layout (fold_left (body folder p) indices s)
              (fold_left (body folder p) indices t).
Proof.
  induction indices as [|i rest IH]; intros s t H; simpl; [exact H|].
  apply IH. now apply same_layout_body.
Qed.

Lemma skipped_indices_vanish indices : forall st,
  same_layout (fold_left (body folder p) indices st)
              (fold_left (body folder p)
                         (filter (readable folder p) indices) st).
Proof.
  induction indices as [|i rest IH]; intro st; simpl.
  - apply same_layout_refl.
  - destruct (readable folder p i) eqn:E; simpl.
    + apply IH.
    + rewrite (body_skipped st i E).
      eapply same_layout_trans; [|apply IH].
      apply same_layout_loop, same_layout_warn.
Qed.

Lemma all_skipped indices : forall st,
  (forall i, In i indices -> readable folder p i = false) ->
  fold_left (body folder p) indices st =
    {| x := x st; y := y st; line_height := line_height st;
       pdf := pdf st;
       shown := shown st ++ map (diagnostic folder) indices |}.
Proof.
  induction indices as [|i rest IH]; intros st H; simpl.
  - rewrite app_nil_r. now destruct st.
  - rewrite (body_skipped st i) by (apply H; now left).
    rewrite IH by (intros j Hj; apply H; now right).
    simpl. now rewrite <- app_assoc.
Qed.

Lemma generate_pdf_parsed input_string indices :
  parse_indices input_string = inr indices ->
  generate_pdf folder p input_string =
    {| returned := Some (pdf (layout folder p indices));
       messages := shown (layout folder p indices) |}.
Proof.
  intro H. unfold generate_pdf. now rewrite H.
Qed.

(** C7. When the input parses and every parsed index is skipped, the
    call still returns a document: the single page opened at the start,
    with no placement, together with one warning per index. *)
Theorem all_skipped_document input_string indices :
  parse_indices input_string = inr indices ->
  (forall i, In i indices -> readable folder p i = false) ->
  generate_pdf folder p input_string =
    {| returned := Some [add_page];
       messages := map (diagnostic folder) indices |}
  /\ pages [add_page] = 1%nat
  /\ placements [add_page] = []
  /\ returned (generate_pdf folder p input_string) <> None
  /\ messages (generate_pdf folder p input_string) <> [NoValidIndices].
Proof.
  intros Hp Hall.
  assert (E : generate_pdf folder p input_string =
              {| returned := Some [add_page];
                 messages := map (diagnostic folder) indices |}).
  { rewrite (generate_pdf_parsed _ _ Hp). unfold layout.
    now rewrite (all_skipped indices (start p) Hall). }
  rewrite E. simpl. repeat split; try discriminate.
  destruct indices as [|i rest]; simpl.
  - unfold parse_indices in Hp.
    destruct (comprehension _) as [[|? ?]|]; discriminate.
  - unfold diagnostic. destruct (folder i); discriminate.
Qed.

End Skipping.

Lemma all_skipped_document_witness :
  generate_pdf nothing defaults (lit "_999999")
  = {| returned := Some [add_page]; messages := [NotFound 999999] |}.
Proof.
  refine (proj1 (all_skipped_document nothing defaults (lit "_999999")
                   [999999%N] eq_refl _)).
  intros i _. reflexivity.
Defined.

(** ** The index parser *)

Section Parser.

Lemma isdecimal_char_isdigit c : isdecimal_char c = true -> isdigit_char c = true.
Proof.
  intro H. unfold isdigit_char. now rewrite H.
Qed.

Lemma isdecimal_isdigit tok : isdecimal tok = true -> isdigit tok = true.
Proof.
  destruct tok as [|c tok]; [discriminate|].
  unfold isdecimal, isdigit. rewrite !forallb_forall.
  intros H a Ha. apply isdecimal_char_isdigit, H, Ha.
Qed.

Lemma isspace_not_digit c : isspace_char c = true -> isdigit_char c = false.
Proof.
  unfold isspace_char, isdigit_char, isdecimal_char, in_range.
  intro H.
  repeat (apply orb_prop in H; destruct H as [H|H]);
    repeat match goal with
      | H : (_ && _)%bool = true |- _ => apply andb_prop in H; destruct H
      | H : (_ <=? _)%N = true |- _ => apply N.leb_le in H
      | H : (_ =? _)%N = true |- _ => apply N.eqb_eq in H
      end;
    repeat (apply orb_false_intro); try apply andb_false_iff;
    rewrite ?N.leb_gt, ?N.eqb_neq; lia.
Qed.

Lemma interior_space_not_digit tok :
  existsb isspace_char tok = true -> isdigit tok = false.
Proof.
  intro H. apply existsb_exists in H. destruct H as (c & Hin & Hc).
  destruct tok as [|c0 tok]; [reflexivity|].
  unfold isdigit. apply not_true_is_false. intro Hall.
  rewrite forallb_forall in Hall. specialize (Hall c Hin).
  rewrite (isspace_not_digit c Hc) in Hall. discriminate.
Qed.

(** when every token that passes [isdigit] is an ASCII numeral within the
    digit limit, the comprehension keeps the values of exactly those
    tokens, in order *)
Lemma comprehension_decimal tokens :
  (forall tok, In tok tokens -> isdigit tok = true ->
     isdecimal tok = true /\ within_digit_limit tok = true) ->
  comprehension tokens
  = Some (map (decimal_value 0) (filter isdecimal tokens)).
Proof.
  induction tokens as [|tok rest IH]; intro H; [reflexivity|].
  simpl. rewrite IH by (intros t Ht; apply H; now right).
  destruct (isdigit tok) eqn:Ed.
  - destruct (H tok (or_introl eq_refl) Ed) as [Hc Hl].
    unfold int. rewrite Hc, Hl. reflexivity.
  - destruct (isdecimal tok) eqn:Ec; [|reflexivity].
    apply isdecimal_isdigit in Ec. congruence.
Qed.

Lemma comprehension_no_digit tokens :
  (forall tok, In tok tokens -> isdigit tok = false) ->
  comprehension tokens = Some [].
Proof.
  induction tokens as [|tok rest IH]; intro H; [reflexivity|].
  simpl. rewrite (H tok (or_introl eq_refl)).
  apply IH. intros t Ht. apply H. now right.
Qed.

Lemma parse_indices_nonempty input_string indices :
  parse_indices input_string = inr indices -> indices <> [].
Proof.
  unfold parse_indices.
  destruct (comprehension _) as [[|n ns]|]; try discriminate.
  intros [= <-]. discriminate.
Qed.

Lemma parse_indices_failure input_string m :
  parse_indices input_string = inl m ->
  m = NoValidIndices \/ m = InvalidFormat.
Proof.
  unfold parse_indices.
  destruct (comprehension _) as [[|n ns]|]; try discriminate;
    intros [= <-]; auto.
Qed.

(** ** Stripping *)

Lemma lstrip_spaces_app ws s :
  forallb isspace_char ws = true -> lstrip (ws ++ s) = lstrip s.
Proof.
  induction ws as [|c ws IH]; simpl; [reflexivity|].
  intro H. apply andb_prop in H. destruct H as [Hc Hws].
  rewrite Hc. now apply IH.
Qed.

Lemma lstrip_spaces ws : forallb isspace_char ws = true -> lstrip ws = [].
Proof.
  intro H. rewrite <- (app_nil_r ws). now rewrite lstrip_spaces_app.
Qed.

Lemma lstrip_app s t :
  lstrip (s ++ t) = match lstrip s with
                    | [] => lstrip t
                    | _ => lstrip s ++ t
                    end.
Proof.
  induction s as [|c s IH]; simpl; [reflexivity|].
  destruct (isspace_char c); [exact IH|reflexivity].
Qed.

Lemma forallb_rev {A} (f : A -> bool) l : forallb f (rev l) = forallb f l.
Proof.
  destruct (forallb f l) eqn:E.
  - rewrite forallb_forall in *. intros a Ha. apply E. now apply in_rev.
  - apply not_true_is_false. intro H. rewrite forallb_forall in H.
    assert (forallb f l = true); [|congruence].
    apply forallb_forall. intros a Ha. apply H. now apply in_rev in Ha.
Qed.

Lemma rstrip_app_spaces s ws :
  forallb isspace_char ws = true -> rstrip (s ++ ws) = rstrip s.
Proof.
  intro H. unfold rstrip. rewrite rev_app_distr.
  rewrite lstrip_spaces_app; [reflexivity|]. now rewrite forallb_rev.
Qed.

Lemma strip_surrounded ws1 s ws2 :
  forallb isspace_char ws1 = true ->
  forallb isspace_char ws2 = true ->
  strip (ws1 ++ s ++ ws2) = strip s.
Proof.
  intros H1 H2. unfold strip.
  rewrite lstrip_spaces_app by exact H1.
  rewrite lstrip_app.
  destruct (lstrip s) as [|c t] eqn:E.
  - now rewrite (lstrip_spaces ws2 H2).
  - now apply rstrip_app_spaces.
Qed.

End Parser.

(** ** Outcomes of the parser *)

(** C3. The comprehension keeps, in order, the values of the tokens that
    are ASCII numerals and drops the tokens that [isdigit] rejects
    ("_1_a_2" gives [1, 2]); but a token holding a superscript digit passes
    [isdigit], [int] raises [ValueError] on it, and the call is abandoned
    with the invalid-format error instead of dropping the token. *)
Theorem superscript_token_not_dropped :
  parse_indices (lit "_1_a_2") = inr [1; 2]%N
  /\ isdigit [superscript_two] = true
  /\ int [superscript_two] = None
  /\ tokens_of (lit "_1_" ++ [superscript_two] ++ lit "_2")
     = [[]; lit "1"; [superscript_two]; lit "2"]
  /\ parse_indices (lit "_1_" ++ [superscript_two] ++ lit "_2")
     = inl InvalidFormat
  /\ (forall folder p,
        generate_pdf folder p (lit "_1_" ++ [superscript_two] ++ lit "_2")
        = {| returned := None; messages := [InvalidFormat] |}).
Proof.
  repeat split; reflexivity.
Qed.

(** C5. A call is abandoned although a valid index was given: the token
    "1" converts, the token of one superscript digit passes [isdigit] and
    makes [int] raise, and the handler of lines 32-34 shows the
    invalid-format error and returns [None]; that is not the empty-input
    outcome, which "__" gets.  A numeral of 4301 digits ends the call in
    the same way. *)
Theorem invalid_format_also_aborts :
  In (lit "1") (tokens_of (lit "_1_" ++ [superscript_two]))
  /\ int (lit "1") = Some 1%N
  /\ returned (generate_pdf glyphs defaults (lit "_1_" ++ [superscript_two]))
     = None
  /\ messages (generate_pdf glyphs defaults (lit "_1_" ++ [superscript_two]))
     = [InvalidFormat]
  /\ messages (generate_pdf glyphs defaults (lit "_1_" ++ [superscript_two]))
     <> [NoValidIndices]
  /\ generate_pdf glyphs defaults (lit "__")
     = {| returned := None; messages := [NoValidIndices] |}
  /\ generate_pdf glyphs defaults
       (lit "_1_" ++ repeat "1"%char 4301)
     = {| returned := None; messages := [InvalidFormat] |}.
Proof.
  repeat split; try (vm_compute; reflexivity).
  - right. left. reflexivity.
  - discriminate.
Qed.

(** C10. The input is stripped before it is split, so whitespace around
    the whole input does not change what is parsed; a token that holds a
    whitespace character is not a digit string and is dropped. *)
Theorem surrounding_whitespace_ignored ws1 s ws2 :
  forallb isspace_char ws1 = true ->
  forallb isspace_char ws2 = true ->
  tokens_of (ws1 ++ s ++ ws2) = split underscore (strip s)
  /\ parse_indices (ws1 ++ s ++ ws2) = parse_indices s
  /\ (forall tok rest,
        existsb isspace_char tok = true ->
        isdigit tok = false
        /\ comprehension (tok :: rest) = comprehension rest).
Proof.
  intros H1 H2.
  assert (E : tokens_of (ws1 ++ s ++ ws2) = tokens_of s).
  { unfold tokens_of. now rewrite strip_surrounded. }
  split; [exact E|]. split.
  - unfold parse_indices. now rewrite E.
  - intros tok rest H. pose proof (interior_space_not_digit tok H) as Hd.
    split; [exact Hd|]. simpl. now rewrite Hd.
Qed.

Lemma surrounding_whitespace_ignored_witness :
  parse_indices (lit "  _1_2  ") = parse_indices (lit "_1_2")
  /\ parse_indices (lit "_1_2") = inr [1; 2]%N
  /\ isdigit (lit "1 ") = false
  /\ parse_indices (lit "1 _2") = inr [2]%N.
Proof.
  destruct (surrounding_whitespace_ignored (lit "  ") (lit "_1_2") (lit "  ")
              eq_refl eq_refl) as (_ & Hparse & Hinner).
  split; [exact Hparse|]. split; [reflexivity|].
  split; [exact (proj1 (Hinner (lit "1 ") [lit "2"] eq_refl))|reflexivity].
Defined.

(** ** Where the gaps go *)

Section Gaps.

Variable folder : N -> option File.
Variable p : LayoutParameters.

(** an iteration either warns, or places one image of full width at the
    cursor left by the two tests *)
Lemma body_cases st index :
  (exists m, body folder p st index = warn st m)
  \/ exists new_height,
       body folder p st index
       = place p (page_break p (line_wrap p st (image_width p)) new_height)
               index (image_width p) new_height.
Proof.
  unfold body. destruct (folder index) as [img|]; [|left; eauto].
  destruct (measure p img) as [[nw nh]|] eqn:Em; [|left; eauto].
  right. exists nh. now rewrite (measure_width p img nw nh Em).
Qed.



End Gaps.




(** ** One placement per readable index *)

Section Counting.

Variable folder : N -> option File.
Variable p : LayoutParameters.

Lemma placed_indices_app l1 l2 :
  placed_indices (l1 ++ l2) = placed_indices l1 ++ placed_indices l2.
Proof.
  apply flat_map_app.
Qed.


(** what one iteration adds to the document: nothing, the image, or a
    page and the image *)
Lemma body_appends st index :
  if readable folder p index then
    exists cx cy new_height,
      pdf (body folder p st index)
      = pdf st ++ [image index cx cy (image_width p) new_height]
      \/ pdf (body folder p st index)
         = pdf st ++ [add_page; image index cx cy (image_width p) new_height]
  else pdf (body folder p st index) = pdf st.
Proof.
  destruct (readable folder p index) eqn:E.
  - unfold readable in E. unfold body.
    destruct (folder index) as [img|]; [|discriminate].
    destruct (measure p img) as [[nw nh]|] eqn:Em; [|discriminate].
    rewrite (measure_width p img nw nh Em).
    unfold place, page_break, line_wrap.
    destruct (Qgtb (x st + _) _); simpl; destruct (Qgtb _ _); simpl;
      eexists _, _, _;
      rewrite <- ?app_assoc; simpl; (now left) || (now right).
  - now rewrite (body_skipped folder p st index E).
Qed.

Lemma placed_loop indices : forall st,
  placed_indices (pdf (fold_left (body folder p) indices st))
  = placed_indices (pdf st) ++ filter (readable folder p) indices.
Proof.
  induction indices as [|i rest IH]; intro st; simpl.
  - now rewrite app_nil_r.
  - rewrite IH. pose proof (body_appends st i) as H.
    destruct (readable folder p i).
    + destruct H as (cx & cy & nh & [H|H]); rewrite H, placed_indices_app;
        simpl; now rewrite <- app_assoc.
    + now rewrite H.
Qed.


Lemma shown_loop indices : forall st,
  shown (fold_left (body folder p) indices st)
  = shown st
      ++ map (diagnostic folder)
             (filter (fun i => negb (readable folder p i)) indices).
Proof.
  induction indices as [|i rest IH]; intro st; simpl.
  - now rewrite app_nil_r.
  - rewrite IH. destruct (readable folder p i) eqn:E; simpl.
    + f_equal. unfold readable in E. unfold body.
      destruct (folder i) as [img|]; [|discriminate].
      destruct (measure p img) as [[nw nh]|]; [|discriminate].
      unfold place, page_break, line_wrap.
      destruct (Qgtb (x st + nw) _); simpl; destruct (Qgtb _ _); reflexivity.
    + rewrite (body_skipped folder p st i E). simpl. now rewrite <- app_assoc.
Qed.

Hypothesis width_nonneg : 0 <= max_width p.
Hypothesis gap_nonneg : 0 <= h_gap p.
Hypothesis oversized : max_width p < image_width p.






End Counting.



(** ** Numerals: [str] and [int] *)

Section Numerals.

Lemma decimal_value_acc d : forall acc,
  decimal_value (N.pos acc) (list_ascii_of_string (NilEmpty.string_of_uint d))
  = N.pos (Pos.of_uint_acc d acc).
Proof.
  induction d; intro acc;
    cbn [NilEmpty.string_of_uint list_ascii_of_string decimal_value
         Pos.of_uint_acc];
    try reflexivity; rewrite <- IHd; f_equal;
    match goal with
    | |- context [digit_value ?c] =>
        let v := eval vm_compute in (digit_value c) in
        change (digit_value c) with v
    end; lia.
Qed.

Lemma decimal_value_of_uint d :
  decimal_value 0 (list_ascii_of_string (NilEmpty.string_of_uint d))
  = N.of_uint d.
Proof.
  unfold N.of_uint.
  induction d;
    cbn [NilEmpty.string_of_uint list_ascii_of_string decimal_value
         Pos.of_uint];
    try reflexivity;
    match goal with
    | |- context [digit_value ?c] =>
        let v := eval vm_compute in (digit_value c) in
        change (digit_value c) with v
    end;
    change (10 * 0 + 0)%N with 0%N; try exact IHd;
    apply decimal_value_acc.
Qed.

Lemma uint_chars_decimal d :
  forallb isdecimal_char (list_ascii_of_string (NilEmpty.string_of_uint d))
  = true.
Proof.
  induction d; simpl; try reflexivity; exact IHd.
Qed.

Lemma format_index_decimal index : isdecimal (format_index index) = true.
Proof.
  unfold format_index.
  destruct (N.to_uint index) eqn:E; try reflexivity; simpl;
    apply uint_chars_decimal.
Qed.

Lemma format_index_value index : decimal_value 0 (format_index index) = index.
Proof.
  unfold format_index.
  rewrite <- (DecimalN.Unsigned.of_to index) at 2.
  destruct (N.to_uint index) eqn:E; try reflexivity;
    apply (decimal_value_of_uint).
Qed.

Lemma int_format_index index :
  within_digit_limit (format_index index) = true ->
  int (format_index index) = Some index.
Proof.
  intro H. unfold int.
  now rewrite format_index_decimal, H, format_index_value.
Qed.

Lemma decimal_chars_no_underscore tok :
  forallb isdecimal_char tok = true -> ~ In underscore tok.
Proof.
  intros H Hin. rewrite forallb_forall in H.
  specialize (H _ Hin). discriminate H.
Qed.

Lemma isdecimal_chars tok :
  isdecimal tok = true -> forallb isdecimal_char tok = true.
Proof.
  destruct tok; [discriminate|]. exact (fun H => H).
Qed.

End Numerals.

(** ** Splitting and joining *)

Section Splitting.

Variable sep : ascii.

Lemma split_nonempty s : split sep s <> [].
Proof.
  destruct s as [|c s]; simpl; [discriminate|].
  destruct (Ascii.eqb c sep); [discriminate|].
  destruct (split sep s); discriminate.
Qed.

Lemma split_no_sep t : ~ In sep t -> split sep t = [t].
Proof.
  induction t as [|c t IH]; intro H; simpl; [reflexivity|].
  destruct (Ascii.eqb c sep) eqn:E.
  - apply Ascii.eqb_eq in E. exfalso. apply H. now left.
  - rewrite IH by (intro Hin; apply H; now right). reflexivity.
Qed.

Lemma split_app_sep t r :
  ~ In sep t -> split sep (t ++ sep :: r) = t :: split sep r.
Proof.
  induction t as [|c t IH]; intro H; simpl.
  - now rewrite Ascii.eqb_refl.
  - destruct (Ascii.eqb c sep) eqn:E.
    + apply Ascii.eqb_eq in E. exfalso. apply H. now left.
    + rewrite IH by (intro Hin; apply H; now right). reflexivity.
Qed.

Lemma split_chars s : forall tok c,
  In tok (split sep s) -> In c tok -> In c s.
Proof.
  induction s as [|a s IH]; intros tok c Htok Hc; simpl in Htok.
  - destruct Htok as [<-|[]]. exact Hc.
  - destruct (Ascii.eqb a sep).
    + destruct Htok as [<-|Htok]; [destruct Hc|].
      right. exact (IH tok c Htok Hc).
    + destruct (split sep s) as [|t ts] eqn:E.
      * destruct Htok as [<-|[]]. destruct Hc as [<-|[]]. now left.
      * destruct Htok as [<-|Htok].
        -- destruct Hc as [<-|Hc]; [now left|].
           right. apply (IH t c); [now left|exact Hc].
        -- right. apply (IH tok c); [now right|exact Hc].
Qed.

Lemma split_tokens_no_sep s : forall tok,
  In tok (split sep s) -> ~ In sep tok.
Proof.
  induction s as [|a s IH]; intros tok Htok; simpl in Htok.
  - destruct Htok as [<-|[]]. intros [].
  - destruct (Ascii.eqb a sep) eqn:Ea.
    + destruct Htok as [<-|Htok]; [intros []|]. now apply IH.
    + destruct (split sep s) as [|t ts] eqn:E.
      * destruct Htok as [<-|[]]. intros [->|[]].
        rewrite Ascii.eqb_refl in Ea. discriminate.
      * destruct Htok as [<-|Htok].
        -- intros [->|Hin].
           ++ rewrite Ascii.eqb_refl in Ea. discriminate.
           ++ apply (IH t); [now left|exact Hin].
        -- apply IH. now right.
Qed.

Lemma join_split s : join sep (split sep s) = s.
Proof.
  induction s as [|a s IH]; [reflexivity|].
  simpl split. destruct (Ascii.eqb a sep) eqn:Ea.
  - apply Ascii.eqb_eq in Ea. subst a.
    pose proof (split_nonempty s) as Hne.
    destruct (split sep s) as [|t ts]; [contradiction|].
    cbn [join app]. cbn [join] in IH. now rewrite IH.
  - pose proof (split_nonempty s) as Hne.
    destruct (split sep s) as [|t ts]; [contradiction|].
    cbn [join] in *. destruct ts as [|t' ts'].
    + now rewrite IH.
    + rewrite <- IH. reflexivity.
Qed.

Lemma split_length s :
  List.length (split sep s) = S (count_occ ascii_dec s sep).
Proof.
  induction s as [|a s IH]; [reflexivity|].
  simpl. destruct (Ascii.eqb a sep) eqn:Ea.
  - apply Ascii.eqb_eq in Ea. subst a.
    destruct (ascii_dec sep sep) as [_|N]; [|contradiction].
    simpl. now rewrite IH.
  - destruct (ascii_dec a sep) as [->|_].
    + rewrite Ascii.eqb_refl in Ea. discriminate.
    + rewrite <- IH. pose proof (split_nonempty s) as Hne.
      destruct (split sep s); [contradiction|reflexivity].
Qed.

(** X1. [split] loses nothing: joining the tokens with the separator
    gives the string back, no token holds the separator, and there is one
    token more than there are separators. *)
Theorem split_round_trip s :
  join sep (split sep s) = s
  /\ (forall tok, In tok (split sep s) -> ~ In sep tok)
  /\ List.length (split sep s) = S (count_occ ascii_dec s sep).
Proof.
  split; [apply join_split|].
  split; [apply split_tokens_no_sep|apply split_length].
Qed.

End Splitting.

(** ** What [strip] removes *)

Section Stripping.

Lemma lstrip_decomp s :
  exists a, s = a ++ lstrip s /\ forallb isspace_char a = true.
Proof.
  induction s as [|c s (a & E & Ha)]; simpl.
  - now exists [].
  - destruct (isspace_char c) eqn:Ec.
    + exists (c :: a). simpl. rewrite Ec, Ha. split; [now f_equal|reflexivity].
    + now exists [].
Qed.

Lemma lstrip_head s :
  match lstrip s with
  | c :: _ => isspace_char c = false
  | [] => True
  end.
Proof.
  induction s as [|c s IH]; simpl; [exact I|].
  destruct (isspace_char c) eqn:Ec; [exact IH|exact Ec].
Qed.

Lemma lstrip_fixed s :
  match s with
  | c :: _ => isspace_char c = false
  | [] => True
  end -> lstrip s = s.
Proof.
  destruct s as [|c s]; simpl; [reflexivity|]. now intros ->.
Qed.

Lemma rstrip_decomp s :
  exists b, s = rstrip s ++ b /\ forallb isspace_char b = true.
Proof.
  destruct (lstrip_decomp (rev s)) as (a & E & Ha).
  exists (rev a). split.
  - unfold rstrip. rewrite <- rev_app_distr, <- E. now rewrite rev_involutive.
  - now rewrite forallb_rev.
Qed.

Lemma strip_last s :
  match rev (strip s) with
  | c :: _ => isspace_char c = false
  | [] => True
  end.
Proof.
  unfold strip, rstrip. rewrite rev_involutive. apply lstrip_head.
Qed.

Lemma strip_first s :
  match strip s with
  | c :: _ => isspace_char c = false
  | [] => True
  end.
Proof.
  unfold strip. destruct (rstrip_decomp (lstrip s)) as (b & E & _).
  pose proof (lstrip_head s) as H. rewrite E in H.
  destruct (rstrip (lstrip s)); [exact I|exact H].
Qed.

Lemma strip_fixed s :
  match s with c :: _ => isspace_char c = false | [] => True end ->
  match rev s with c :: _ => isspace_char c = false | [] => True end ->
  strip s = s.
Proof.
  intros H1 H2. unfold strip, rstrip.
  rewrite (lstrip_fixed s H1), (lstrip_fixed (rev s) H2).
  apply rev_involutive.
Qed.

(** X2. [strip] removes a run of whitespace at each end and nothing
    else: what is left neither starts nor ends with a whitespace
    character, and stripping it again changes nothing. *)
Theorem strip_removes_only_ends s :
  (exists a b,
      s = a ++ strip s ++ b
      /\ forallb isspace_char a = true
      /\ forallb isspace_char b = true)
  /\ match strip s with c :: _ => isspace_char c = false | [] => True end
  /\ match rev (strip s) with c :: _ => isspace_char c = false | [] => True end
  /\ strip (strip s) = strip s.
Proof.
  split; [|split; [apply strip_first|split; [apply strip_last|]]].
  - destruct (lstrip_decomp s) as (a & Ea & Ha).
    destruct (rstrip_decomp (lstrip s)) as (b & Eb & Hb).
    exists a, b. unfold strip. rewrite <- Eb. auto.
  - apply strip_fixed; [apply strip_first|apply strip_last].
Qed.

Lemma strip_chars s c : In c (strip s) -> In c s.
Proof.
  intro H.
  destruct (lstrip_decomp s) as (a & Ea & _).
  destruct (rstrip_decomp (lstrip s)) as (b & Eb & _).
  rewrite Ea, Eb. fold (strip s).
  apply in_or_app. right. apply in_or_app. now left.
Qed.

Lemma no_space_strip s :
  (forall c, In c s -> isspace_char c = false) -> strip s = s.
Proof.
  intro H. apply strip_fixed.
  - destruct s as [|c s]; [exact I|]. apply H. now left.
  - destruct (rev s) as [|c r] eqn:E; [exact I|].
    apply H. apply in_rev. rewrite E. now left.
Qed.

End Stripping.

(** ** Parsing what was formatted *)

Section RoundTrip.

Lemma decimal_char_not_space c :
  isdecimal_char c = true -> isspace_char c = false.
Proof.
  intro H. destruct (isspace_char c) eqn:E; [|reflexivity].
  apply isspace_not_digit in E.
  rewrite (isdecimal_char_isdigit c H) in E. discriminate.
Qed.

Lemma format_indices_chars indices c :
  In c (format_indices indices) -> c = underscore \/ isdecimal_char c = true.
Proof.
  unfold format_indices. rewrite in_flat_map.
  intros (n & _ & [<-|Hc]); [now left|]. right.
  pose proof (isdecimal_chars _ (format_index_decimal n)) as H.
  rewrite forallb_forall in H. now apply H.
Qed.

Lemma format_indices_strip indices :
  strip (format_indices indices) = format_indices indices.
Proof.
  apply no_space_strip. intros c Hc.
  destruct (format_indices_chars indices c Hc) as [->|H]; [reflexivity|].
  now apply decimal_char_not_space.
Qed.

Lemma format_indices_split indices :
  split underscore (format_indices indices)
  = match indices with
    | [] => [[]]
    | _ :: _ => [] :: map format_index indices
    end.
Proof.
  induction indices as [|n rest IH]; [reflexivity|].
  assert (Hn : ~ In underscore (format_index n)).
  { apply decimal_chars_no_underscore, isdecimal_chars,
      format_index_decimal. }
  change (format_indices (n :: rest))
    with (underscore :: (format_index n ++ format_indices rest)).
  cbn [split]. rewrite Ascii.eqb_refl. f_equal.
  destruct rest as [|m rest'].
  - simpl. rewrite app_nil_r. now apply split_no_sep.
  - change (format_indices (m :: rest'))
      with (underscore :: (format_index m ++ format_indices rest')) in *.
    rewrite (split_app_sep underscore _ _ Hn).
    cbn [split] in IH. rewrite Ascii.eqb_refl in IH.
    injection IH as ->. reflexivity.
Qed.

Lemma comprehension_formatted indices :
  (forall n, In n indices -> within_digit_limit (format_index n) = true) ->
  comprehension (map format_index indices) = Some indices.
Proof.
  induction indices as [|n rest IH]; intro Hl; [reflexivity|].
  cbn [map comprehension].
  rewrite (isdecimal_isdigit _ (format_index_decimal n)).
  rewrite int_format_index by (apply Hl; now left).
  now rewrite IH by (intros m Hm; apply Hl; now right).
Qed.

(** X3. Writing a non-empty list of indices, each of at most 4300
    digits, in the format of the docstring, "_i_j_k...", and parsing the
    result gives the list back. *)
Theorem parse_format_round_trip indices :
  indices <> [] ->
  (forall n, In n indices -> within_digit_limit (format_index n) = true) ->
  parse_indices (format_indices indices) = inr indices.
Proof.
  intros H Hl. unfold parse_indices, tokens_of.
  rewrite format_indices_strip, format_indices_split.
  destruct indices as [|n rest]; [contradiction|].
  change (comprehension ([] :: map format_index (n :: rest)))
    with (comprehension (map format_index (n :: rest))).
  now rewrite comprehension_formatted.
Qed.

End RoundTrip.

Lemma parse_format_round_trip_witness :
  format_indices [12; 0; 330]%N = lit "_12_0_330"
  /\ parse_indices (format_indices [12; 0; 330]%N) = inr [12; 0; 330]%N.
Proof.
  split; [reflexivity|].
  apply (parse_format_round_trip [12; 0; 330]%N); [discriminate|].
  intros n [<-|[<-|[<-|[]]]]; reflexivity.
Defined.

(** ** ASCII input *)

Section AsciiInput.

Lemma ascii_digit_is_decimal c :
  (code c <? 128)%N = true -> isdigit_char c = true -> isdecimal_char c = true.
Proof.
  unfold isdigit_char. intros Ha H. apply N.ltb_lt in Ha.
  repeat (apply orb_prop in H; destruct H as [H|H]); try exact H;
    apply N.eqb_eq in H; lia.
Qed.

Lemma ascii_isdigit_isdecimal tok :
  isascii tok = true -> isdigit tok = true -> isdecimal tok = true.
Proof.
  destruct tok as [|c tok]; [discriminate|].
  unfold isascii, isdigit, isdecimal. rewrite !forallb_forall.
  intros Ha Hd a Hin. apply ascii_digit_is_decimal; auto.
Qed.

Lemma tokens_ascii s tok :
  isascii s = true -> In tok (tokens_of s) -> isascii tok = true.
Proof.
  unfold isascii, tokens_of. rewrite !forallb_forall.
  intros H Htok c Hc. apply H.
  apply strip_chars. exact (split_chars underscore _ tok c Htok Hc).
Qed.

(** X4. On an input made of ASCII characters whose tokens have at most
    4300 characters each, the conversion never raises: the invalid-format
    error is not shown, and the indices are the values of the tokens that
    are ASCII numerals, in their order. *)
Theorem ascii_input_never_invalid s :
  isascii s = true ->
  (forall tok, In tok (tokens_of s) -> within_digit_limit tok = true) ->
  comprehension (tokens_of s)
  = Some (map (decimal_value 0) (filter isdecimal (tokens_of s)))
  /\ parse_indices s <> inl InvalidFormat.
Proof.
  intros H Hl.
  assert (E : comprehension (tokens_of s)
              = Some (map (decimal_value 0) (filter isdecimal (tokens_of s)))).
  { apply comprehension_decimal. intros tok Htok Hd.
    split; [|now apply Hl].
    apply ascii_isdigit_isdecimal; [|exact Hd].
    now apply tokens_ascii with s. }
  split; [exact E|].
  unfold parse_indices. rewrite E.
  destruct (map _ _); discriminate.
Qed.

End AsciiInput.

Lemma ascii_input_never_invalid_witness :
  comprehension (tokens_of (lit " _3_x_04__5 "))
  = Some (map (decimal_value 0)
              (filter isdecimal (tokens_of (lit " _3_x_04__5 "))))
  /\ parse_indices (lit " _3_x_04__5 ") <> inl InvalidFormat.
Proof.
  apply (ascii_input_never_invalid (lit " _3_x_04__5 ")); [reflexivity|].
  intros tok [<-|[<-|[<-|[<-|[<-|[<-|[]]]]]]]; reflexivity.
Defined.

(** ** Leading zeros and file names *)

Section FileNames.

Lemma int_some tok n :
  int tok = Some n ->
  isdecimal tok = true /\ within_digit_limit tok = true
  /\ n = decimal_value 0 tok.
Proof.
  unfold int. destruct (isdecimal tok); [|discriminate].
  destruct (within_digit_limit tok); [|discriminate].
  intros [= <-]. auto.
Qed.

Lemma decimal_value_zeros k tok :
  decimal_value 0 (repeat "0"%char k ++ tok) = decimal_value 0 tok.
Proof.
  induction k as [|k IH]; [reflexivity|]. exact IH.
Qed.

Lemma isdecimal_zeros k tok :
  isdecimal tok = true -> isdecimal (repeat "0"%char k ++ tok) = true.
Proof.
  intro H. pose proof (isdecimal_chars tok H) as Hc.
  assert (Hall : forallb isdecimal_char (repeat "0"%char k ++ tok) = true).
  { rewrite forallb_app, Hc, andb_true_r.
    apply forallb_forall. intros c Hin.
    apply repeat_spec in Hin. now subst c. }
  destruct (repeat "0"%char k ++ tok) eqn:E; [|exact Hall].
  apply app_eq_nil in E. destruct E as [_ ->]. discriminate H.
Qed.

(** X5. Zeros written before a numeral do not change the index, as long
    as the padded token has at most 4300 digits: it passes the digit test,
    converts to the same integer, and so takes the same place in the list
    of indices. *)
Theorem leading_zeros_ignored k tok n rest :
  int tok = Some n ->
  within_digit_limit (repeat "0"%char k ++ tok) = true ->
  isdigit (repeat "0"%char k ++ tok) = true
  /\ int (repeat "0"%char k ++ tok) = Some n
  /\ comprehension ((repeat "0"%char k ++ tok) :: rest)
     = comprehension (tok :: rest).
Proof.
  intros H Hlim. destruct (int_some tok n H) as (Hd & Hl & ->).
  pose proof (isdecimal_zeros k tok Hd) as Hz.
  assert (Hi : int (repeat "0"%char k ++ tok) = Some (decimal_value 0 tok)).
  { unfold int. now rewrite Hz, Hlim, decimal_value_zeros. }
  split; [now apply isdecimal_isdigit|]. split; [exact Hi|].
  cbn [comprehension].
  rewrite (isdecimal_isdigit _ Hz), (isdecimal_isdigit _ Hd), Hi.
  unfold int. now rewrite Hd, Hl.
Qed.

Lemma format_index_injective n m : format_index n = format_index m -> n = m.
Proof.
  intro H. rewrite <- (format_index_value n), <- (format_index_value m).
  now rewrite H.
Qed.

Lemma file_name_no_slash index :
  startswith_slash (format_index index ++ lit ".png") = false.
Proof.
  pose proof (format_index_decimal index) as H.
  destruct (format_index index) as [|c s]; [discriminate H|].
  simpl in *. apply andb_prop in H. destruct H as [H _].
  unfold slash. destruct (Ascii.eqb c "/") eqn:E; [|reflexivity].
  apply Ascii.eqb_eq in E. subst c. discriminate H.
Qed.

Lemma endswith_slash_spec s :
  startswith_slash (rev s) = true <-> exists s', s = s' ++ [slash].
Proof.
  split.
  - intro H. destruct (rev s) as [|c r] eqn:E; [discriminate H|].
    simpl in H. apply Ascii.eqb_eq in H. subst c.
    exists (rev r). rewrite <- (rev_involutive s), E. reflexivity.
  - intros (s' & ->). rewrite rev_app_distr. reflexivity.
Qed.

Lemma image_path_prefix image_folder :
  exists prefix, forall index,
    image_path image_folder index
    = prefix ++ format_index index ++ lit ".png".
Proof.
  unfold image_path, os_path_join.
  destruct image_folder as [|c s].
  - exists []. intro index. now rewrite file_name_no_slash.
  - destruct (startswith_slash (rev (c :: s))).
    + exists (c :: s). intro index. now rewrite file_name_no_slash.
    + exists ((c :: s) ++ [slash]). intro index.
      rewrite file_name_no_slash. now rewrite <- app_assoc.
Qed.

(** X6. The path of an asset is the decimal digits of the index and
    ".png", after nothing for an empty folder name, after the folder name
    when it ends with a separator, and after the folder name and one
    separator otherwise; the digits read back as the index, so two
    different indices never name the same file. *)
Theorem image_path_distinct image_folder n m :
  n <> m ->
  image_path image_folder n <> image_path image_folder m
  /\ decimal_value 0 (format_index n) = n
  /\ (image_folder = [] ->
      image_path image_folder n = format_index n ++ lit ".png")
  /\ (forall parent, image_folder = parent ++ [slash] ->
      image_path image_folder n
      = image_folder ++ format_index n ++ lit ".png")
  /\ (image_folder <> [] ->
      (forall parent, image_folder <> parent ++ [slash]) ->
      image_path image_folder n
      = image_folder ++ slash :: format_index n ++ lit ".png").
Proof.
  intro Hne.
  destruct (image_path_prefix image_folder) as (prefix & Hp).
  split; [|split; [apply format_index_value|]].
  - rewrite !Hp. intro E. apply app_inv_head, app_inv_tail in E.
    apply Hne. now apply format_index_injective.
  - unfold image_path, os_path_join. rewrite file_name_no_slash.
    split; [|split].
    + now intros ->.
    + intros parent E.
      assert (H : startswith_slash (rev image_folder) = true)
        by (apply endswith_slash_spec; eauto).
      rewrite H. destruct image_folder; [|reflexivity].
      now destruct parent.
    + intros Hnil Hno.
      destruct (startswith_slash (rev image_folder)) eqn:H.
      * apply endswith_slash_spec in H. destruct H as (parent & E).
        now destruct (Hno parent).
      * destruct image_folder; [contradiction|reflexivity].
Qed.

End FileNames.

Lemma leading_zeros_ignored_witness :
  int (lit "007") = Some 7%N
  /\ comprehension [lit "007"; lit "12"] = comprehension [lit "7"; lit "12"].
Proof.
  destruct (leading_zeros_ignored 2 (lit "7") 7%N [lit "12"] eq_refl eq_refl)
    as (_ & Hi & Hc).
  split; [exact Hi|exact Hc].
Defined.

Lemma image_path_distinct_witness :
  image_path (lit "final") 7 <> image_path (lit "final") 70
  /\ image_path (lit "final") 7 = lit "final/7.png".
Proof.
  destruct (image_path_distinct (lit "final") 7%N 70%N)
    as (Hd & _ & _ & _ & Hjoin); [discriminate|].
  split; [exact Hd|].
  apply Hjoin; [discriminate|].
  intros parent E.
  assert (H : rev (lit "final") = rev (parent ++ [slash])) by now rewrite E.
  rewrite rev_app_distr in H. discriminate H.
Defined.

(** ** Images inside the writable region *)

Section Containment.

Variable folder : N -> option File.
Variable p : LayoutParameters.


Lemma Forall_snoc {A} (P : A -> Prop) l a :
  Forall P l -> P a -> Forall P (l ++ [a]).
Proof.
  intros Hl Ha. apply Forall_app. split; [exact Hl|]. now constructor.
Qed.

Section Horizontal.

Hypothesis fits : image_width p <= max_width p.
Hypothesis width_nonneg : 0 <= image_width p.
Hypothesis gap_nonneg : 0 <= h_gap p.

Lemma inside_x_step st new_height index :
  x_start p <= x st ->
  Forall (inside_x p) (pdf st) ->
  let st' := place p (page_break p (line_wrap p st (image_width p)) new_height)
                   index (image_width p) new_height in
  x_start p <= x st' /\ Forall (inside_x p) (pdf st').
Proof.
  intros Hx Hall st'. subst st'.
  unfold page_break, line_wrap.
  destruct (Qgtb (x st + image_width p) (x_start p + max_width p)) eqn:Ew;
    cbn [x y line_height pdf shown];
    destruct (Qgtb _ (y_start p + max_height p));
    unfold place; cbn [x y line_height pdf shown];
    (split; [lra|]);
    repeat apply Forall_snoc; try exact Hall; try exact I;
    simpl; try lra.
  apply Qgtb_false in Ew. lra.
Qed.

Lemma inside_x_loop indices : forall st,
  x_start p <= x st ->
  Forall (inside_x p) (pdf st) ->
  Forall (inside_x p) (pdf (fold_left (body folder p) indices st)).
Proof.
  induction indices as [|i rest IH]; intros st Hx Hall; simpl; [exact Hall|].
  destruct (body_cases folder p st i) as [(m & E)|(nh & E)]; rewrite E.
  - now apply IH.
  - destruct (inside_x_step st nh i Hx Hall) as [Hx' Hall']. now apply IH.
Qed.

End Horizontal.

Section Vertical.

Hypothesis gap_nonneg : 0 <= v_gap p.



End Vertical.

End Containment.

(** X7. When the images are no wider than the writable region, and the
    width and the horizontal gap are not negative, every image of the
    document lies between the left edge [x_start] and the right edge
    [x_start + max_width]. *)
Theorem images_inside_width folder p indices :
  image_width p <= max_width p ->
  0 <= image_width p ->
  0 <= h_gap p ->
  forall index cx cy w h,
    In (image index cx cy w h) (pdf (layout folder p indices)) ->
    x_start p <= cx /\ cx + w <= x_start p + max_width p.
Proof.
  intros Hfits Hw Hg index cx cy w h Hin.
  assert (H : Forall (inside_x p) (pdf (layout folder p indices))).
  { apply inside_x_loop; try assumption.
    - apply Qle_refl.
    - repeat constructor. }
  rewrite Forall_forall in H. exact (H _ Hin).
Qed.

Lemma images_inside_width_witness :
  In (image 1 10 10 10 15) (pdf (layout glyphs defaults [1; 2]%N))
  /\ 10 <= 10 /\ 10 + 10 <= 10 + 190.
Proof.
  assert (Hin : In (image 1 10 10 10 15)
                   (pdf (layout glyphs defaults [1; 2]%N))).
  { vm_compute. right. left. reflexivity. }
  split; [exact Hin|].
  refine (images_inside_width glyphs defaults [1; 2]%N _ _ _ 1%N 10 10 10
            15 Hin); discriminate.
Defined.



(** ** The document only grows *)

Section Growth.

Variable folder : N -> option File.
Variable p : LayoutParameters.

Lemma pdf_grows indices : forall st,
  exists calls, pdf (fold_left (body folder p) indices st) = pdf st ++ calls.
Proof.
  induction indices as [|i rest IH]; intro st; simpl.
  - exists []. now rewrite app_nil_r.
  - destruct (IH (body folder p st i)) as (calls & E). rewrite E.
    pose proof (body_appends folder p st i) as H.
    destruct (readable folder p i).
    + destruct H as (cx & cy & nh & [H|H]); rewrite H, <- app_assoc; eauto.
    + rewrite H. eauto.
Qed.

(** X10. Indices given after others never change what was laid out
    before them: the document and the warnings for [l1 ++ l2] are those
    for [l1], followed by the calls that place the readable indices of
    [l2] in order and by the warnings for the others. *)
Theorem later_indices_only_append l1 l2 :
  exists calls,
    pdf (layout folder p (l1 ++ l2)) = pdf (layout folder p l1) ++ calls
    /\ placed_indices calls = filter (readable folder p) l2
    /\ shown (layout folder p (l1 ++ l2))
       = shown (layout folder p l1)
           ++ map (diagnostic folder)
                  (filter (fun i => negb (readable folder p i)) l2).
Proof.
  unfold layout. rewrite fold_left_app.
  set (st := fold_left (body folder p) l1 (start p)).
  destruct (pdf_grows l2 st) as (calls & E).
  exists calls. split; [exact E|]. split; [|apply shown_loop].
  pose proof (placed_loop folder p l2 st) as H.
  rewrite E, placed_indices_app in H.
  now apply app_inv_head in H.
Qed.


Hypothesis v_gap_nonneg : 0 <= v_gap p.
Hypothesis all_tall : forall index img new_width new_height,
  folder index = Some img ->
  measure p img = Some (new_width, new_height) ->
  y_start p + max_height p < y_start p + new_height.


End Growth.



(** ** What can be measured *)

Section Measuring.

Variable p : LayoutParameters.

(** X12. The [try] block fails exactly on a file that does not decode
    and on an array with no rows or no columns (the division by [h], or
    the division by a zero aspect ratio, raises); every other image is
    measured. *)
Theorem measure_fails_exactly img :
  measure p img = None
  <-> match img with
      | Undecodable => True
      | Pixels h w => h = 0%N \/ w = 0%N
      end.
Proof.
  destruct img as [|h w]; [now split|].
  split.
  - intro H.
    destruct (N.eq_dec h 0) as [Hh|Hh]; [now left|].
    destruct (N.eq_dec w 0) as [Hw|Hw]; [now right|].
    rewrite measure_pixels in H by lia. discriminate.
  - intros [->| ->]; [apply measure_zero_height|apply measure_zero_width].
Qed.

Lemma Q_of_N_mul a b : Q_of_N (a * b) == Q_of_N a * Q_of_N b.
Proof.
  unfold Q_of_N. rewrite N2Z.inj_mul, inject_Z_mult. reflexivity.
Qed.

(** X13. The rendered size depends on the shape of the image only:
    multiplying both pixel dimensions by the same factor leaves the
    rendered width and the rendered height unchanged. *)
Theorem rendered_size_scale_free k h w :
  (0 < k)%N -> (0 < h)%N -> (0 < w)%N ->
  exists scaled plain,
    measure p (Pixels (k * h) (k * w)) = Some (image_width p, scaled)
    /\ measure p (Pixels h w) = Some (image_width p, plain)
    /\ scaled == plain.
Proof.
  intros Hk Hh Hw.
  exists (binary64 (image_width p / binary64 (Q_of_N (k * w) / Q_of_N (k * h)))),
         (binary64 (image_width p / binary64 (Q_of_N w / Q_of_N h))).
  split; [apply measure_pixels; lia|].
  split; [now apply measure_pixels|].
  assert (E : Q_of_N (k * w) / Q_of_N (k * h) == Q_of_N w / Q_of_N h).
  { rewrite !Q_of_N_mul.
    pose proof (Q_of_N_pos k Hk). pose proof (Q_of_N_pos h Hh).
    field. split; intro Z0;
      match goal with
      | H : 0 < ?q |- _ => rewrite Z0 in H; discriminate H
      end. }
  rewrite (binary64_eq _ _ E). reflexivity.
Qed.

End Measuring.

Lemma rendered_size_scale_free_witness :
  exists scaled plain,
    measure defaults (Pixels 300 200) = Some (10, scaled)
    /\ measure defaults (Pixels 30 20) = Some (10, plain)
    /\ scaled == plain.
Proof.
  apply (rendered_size_scale_free defaults 10 30 20); reflexivity.
Defined.

Lemma split_round_trip_witness :
  join underscore (split underscore (lit "_1__2")) = lit "_1__2"
  /\ ~ In underscore (lit "1")
  /\ List.length (split underscore (lit "_1__2")) = 4%nat.
Proof.
  destruct (split_round_trip underscore (lit "_1__2")) as (Hj & Ht & Hl).
  split; [exact Hj|]. split; [|exact Hl].
  apply Ht. right. left. reflexivity.
Defined.

Lemma measure_fails_exactly_witness :
  measure defaults (Pixels 30 0) = None
  /\ measure defaults Undecodable = None.
Proof.
  split.
  - apply (proj2 (measure_fails_exactly defaults (Pixels 30 0))).
    right. reflexivity.
  - apply (proj2 (measure_fails_exactly defaults Undecodable)). exact I.
Defined.

(** ** Images taller than the region *)

Section TooTall.

Variable folder : N -> option File.
Variable p : LayoutParameters.
Hypothesis gap_nonneg : 0 <= v_gap p.



End TooTall.



(** ** Files that [pdf.image] rejects *)

Section Rejection.

Variable assets : N -> option Asset.
Variable p : LayoutParameters.

Lemma skipped_never_raises index :
  readable (files assets) p index = false -> image_raises assets p index = false.
Proof.
  unfold readable, files, image_raises.
  destruct (assets index) as [a|]; [|reflexivity].
  destruct (measure p (decoded a)); [discriminate|reflexivity].
Qed.

(** the loop runs through, or stops at the first index whose file is
    rejected *)
Lemma iterate_cases indices : forall st,
  ((forall i, In i indices -> image_raises assets p i = false)
   /\ iterate assets p indices st
      = Completed (fold_left (body (files assets) p) indices st))
  \/ exists before i after,
       indices = before ++ i :: after
       /\ (forall j, In j before -> image_raises assets p j = false)
       /\ image_raises assets p i = true
       /\ iterate assets p indices st
          = Raised i (shown (fold_left (body (files assets) p) before st)).
Proof.
  induction indices as [|i rest IH]; intro st.
  - left. split; [intros i []|reflexivity].
  - cbn [iterate fold_left].
    destruct (image_raises assets p i) eqn:Ei.
    + right. exists [], i, rest. repeat split; auto. intros j [].
    + destruct (IH (body (files assets) p st i))
        as [[Hall E]|(before & j & after & -> & Hb & Hj & E)].
      * left. split; [|exact E]. intros k [<-|Hk]; auto.
      * right. exists (i :: before), j, after.
        repeat split; auto. intros k [<-|Hk]; auto.
Qed.

Lemma iterate_completes indices st :
  (forall i, In i indices -> image_raises assets p i = false) ->
  iterate assets p indices st
  = Completed (fold_left (body (files assets) p) indices st).
Proof.
  intro H. destruct (iterate_cases indices st)
    as [[_ E]|(before & i & after & -> & _ & Hi & _)]; [exact E|].
  rewrite H in Hi by (apply in_or_app; right; now left). discriminate.
Qed.

Lemma iterate_raises before i after st :
  (forall j, In j before -> image_raises assets p j = false) ->
  image_raises assets p i = true ->
  iterate assets p (before ++ i :: after) st
  = Raised i (shown (fold_left (body (files assets) p) before st)).
Proof.
  revert st. induction before as [|k before IH]; intros st Hb Hi.
  - simpl. now rewrite Hi.
  - cbn [app iterate fold_left]. rewrite (Hb k (or_introl eq_refl)).
    apply IH; [|exact Hi]. intros j Hj. apply Hb. now right.
Qed.

(** X17. An index whose file is missing, or cannot be measured, adds one
    warning and changes nothing else: no call is made on the document,
    [x], [y] and [line_height] keep their values, line 69 is not reached
    for it, and the loop goes on with the remaining indices. *)
Theorem skipped_index_only_warns st index rest :
  (assets index = None
   \/ exists a, assets index = Some a /\ measure p (decoded a) = None) ->
  let st' := body (files assets) p st index in
  (x st' = x st /\ y st' = y st /\ line_height st' = line_height st
   /\ pdf st' = pdf st)
  /\ shown st' = shown st ++ [diagnostic (files assets) index]
  /\ iterate assets p (index :: rest) st = iterate assets p rest st'.
Proof.
  intros H st'.
  assert (Hr : readable (files assets) p index = false).
  { unfold readable, files.
    destruct H as [-> |(a & -> & ->)]; reflexivity. }
  subst st'. cbn [iterate]. rewrite (skipped_never_raises index Hr).
  rewrite (body_skipped (files assets) p st index Hr).
  simpl. auto.
Qed.

(** X19. A call returns what [generate_pdf] computes when [pdf.image]
    accepts the file of every index that is placed; otherwise line 69
    raises at the first index whose file it rejects, after the warnings
    of the indices skipped before it, and nothing is returned. *)
Theorem call_ends_at_first_rejection input_string :
  ((forall indices i,
       parse_indices input_string = inr indices ->
       In i indices -> image_raises assets p i = false) ->
   generate_pdf_call assets p input_string
   = Returns (generate_pdf (files assets) p input_string))
  /\ (forall before i after,
        parse_indices input_string = inr (before ++ i :: after) ->
        (forall j, In j before -> image_raises assets p j = false) ->
        image_raises assets p i = true ->
        generate_pdf_call assets p input_string
        = Raises i (map (diagnostic (files assets))
                        (filter (fun j => negb (readable (files assets) p j))
                                before))).
Proof.
  unfold generate_pdf_call, generate_pdf. split.
  - intro H. destruct (parse_indices input_string) as [m|indices];
      [reflexivity|].
    rewrite iterate_completes by (intros i Hi; now apply (H indices)).
    reflexivity.
  - intros before i after -> Hb Hi.
    rewrite (iterate_raises before i after (start p) Hb Hi).
    now rewrite shown_loop.
Qed.

End Rejection.


Lemma skipped_index_only_warns_witness :
  pdf (body (files glyphs_but_five) defaults (at_cursor 25 10 15) 999%N)
  = [add_page]
  /\ shown (body (files glyphs_but_five) defaults (at_cursor 25 10 15) 999%N)
     = [NotFound 999]
  /\ shown (body (files undecodable) defaults (at_cursor 25 10 15) 3%N)
     = [CouldNotRead 3].
Proof.
  destruct (skipped_index_only_warns glyphs_but_five defaults
              (at_cursor 25 10 15) 999%N [] (or_introl eq_refl))
    as ((_ & _ & _ & Hpdf) & Hshown & _).
  destruct (skipped_index_only_warns undecodable defaults
              (at_cursor 25 10 15) 3%N []
              (or_intror (ex_intro _ {| decoded := Undecodable;
                                        embeds := false |}
                                   (conj eq_refl eq_refl))))
    as (_ & Hshown' & _).
  split; [exact Hpdf|]. split; [exact Hshown|exact Hshown'].
Defined.

Lemma call_ends_at_first_rejection_witness :
  generate_pdf_call glyphs_but_five defaults (lit "_4_999_5_6")
  = Raises 5 [NotFound 999]
  /\ generate_pdf_call glyphs_but_five defaults (lit "_4_999_6")
     = Returns (generate_pdf (files glyphs_but_five) defaults (lit "_4_999_6")).
Proof.
  split.
  - refine (proj2 (call_ends_at_first_rejection glyphs_but_five defaults
                     (lit "_4_999_5_6")) [4; 999]%N 5%N [6]%N eq_refl _ eq_refl).
    intros j [<-|[<-|[]]]; reflexivity.
  - apply (proj1 (call_ends_at_first_rejection glyphs_but_five defaults
                    (lit "_4_999_6"))).
    intros indices i E. vm_compute in E. injection E as <-.
    intros [<-|[<-|[<-|[]]]]; reflexivity.
Defined.

(** ** The empty-input warning *)

Section EmptyInput.

Lemma comprehension_empty tokens :
  comprehension tokens = Some [] ->
  forall tok, In tok tokens -> isdigit tok = false.
Proof.
  induction tokens as [|t rest IH]; intros H tok Hin; [destruct Hin|].
  cbn [comprehension] in H. destruct (isdigit t) eqn:Ed.
  - destruct (int t); [|discriminate].
    destruct (comprehension rest); discriminate.
  - destruct Hin as [<-|Hin]; [exact Ed|now apply IH].
Qed.

(** X18. The no-valid-indices warning is shown exactly when no token of
    the stripped input passes the digit test; the call then returns
    [None] with that one message, whatever the folder holds, before any
    file is looked at. *)
Theorem no_valid_index_iff assets p input_string :
  (parse_indices input_string = inl NoValidIndices
   <-> forall tok, In tok (tokens_of input_string) -> isdigit tok = false)
  /\ (parse_indices input_string = inl NoValidIndices ->
      generate_pdf_call assets p input_string
      = Returns {| returned := None; messages := [NoValidIndices] |}).
Proof.
  split; [split|].
  - unfold parse_indices.
    destruct (comprehension (tokens_of input_string)) as [[|n ns]|] eqn:E;
      try discriminate.
    intros _. now apply comprehension_empty.
  - intro H. unfold parse_indices.
    now rewrite (comprehension_no_digit _ H).
  - intro H. unfold generate_pdf_call. now rewrite H.
Qed.

End EmptyInput.

Lemma no_valid_index_iff_witness :
  parse_indices (lit " _a__1 b_ ") = inl NoValidIndices
  /\ generate_pdf_call rejected defaults (lit " _a__1 b_ ")
     = Returns {| returned := None; messages := [NoValidIndices] |}.
Proof.
  destruct (no_valid_index_iff rejected defaults (lit " _a__1 b_ "))
    as [[_ Hif] Hcall].
  assert (E : parse_indices (lit " _a__1 b_ ") = inl NoValidIndices).
  { apply Hif. intros tok [<-|[<-|[<-|[<-|[<-|[]]]]]]; reflexivity. }
  split; [exact E|exact (Hcall E)].
Defined.

(** ** The button handler *)

Section Handler.

Variable assets : N -> option Asset.
Variable p : LayoutParameters.

Lemma on_generate_failed input_text m :
  parse_indices input_text = inl m ->
  on_generate assets p input_text
  = {| notices := [match input_text with
                   | [] => PleaseEnter
                   | _ :: _ => FromCore m
                   end];
       download := None |}.
Proof.
  intro H. destruct input_text as [|c s]; [reflexivity|].
  unfold on_generate, generate_pdf_call. now rewrite H.
Qed.

Lemma on_generate_completed input_text indices :
  parse_indices input_text = inr indices ->
  (forall i, In i indices -> image_raises assets p i = false) ->
  on_generate assets p input_text
  = {| notices :=
         map FromCore
             (map (diagnostic (files assets))
                  (filter (fun i => negb (readable (files assets) p i))
                          indices))
           ++ [Success];
       download := Some (pdf (layout (files assets) p indices)) |}.
Proof.
  intros H Hall. destruct input_text as [|c s]; [discriminate H|].
  unfold on_generate, generate_pdf_call. rewrite H.
  rewrite (iterate_completes assets p indices (start p) Hall).
  cbn [returned messages]. unfold layout. now rewrite shown_loop.
Qed.

Lemma on_generate_raised input_text before i after :
  parse_indices input_text = inr (before ++ i :: after) ->
  (forall j, In j before -> image_raises assets p j = false) ->
  image_raises assets p i = true ->
  on_generate assets p input_text
  = {| notices :=
         map FromCore
             (map (diagnostic (files assets))
                  (filter (fun j => negb (readable (files assets) p j))
                          before))
           ++ [Traceback i];
       download := None |}.
Proof.
  intros H Hb Hi. destruct input_text as [|c s]; [discriminate H|].
  unfold on_generate, generate_pdf_call. rewrite H.
  rewrite (iterate_raises assets p before i after (start p) Hb Hi).
  now rewrite shown_loop.
Qed.

(** X14. Pressing the button offers a download exactly when the text
    parses to at least one index and [pdf.image] accepts the file of every
    index that is placed; the page then shows the warning of each index
    that was skipped, in input order, and the success notice last.  When
    [pdf.image] rejects a file, the page shows the warnings of the indices
    skipped before it and the exception, and no download.  When the text
    does not parse there is no download and exactly one notice: the
    request to enter a string for an empty text, else the parser's warning
    or error. *)
Theorem download_iff_parsed input_text :
  (download (on_generate assets p input_text) <> None
   <-> exists indices,
         parse_indices input_text = inr indices
         /\ forall i, In i indices -> image_raises assets p i = false)
  /\ (forall indices,
        parse_indices input_text = inr indices ->
        (forall i, In i indices -> image_raises assets p i = false) ->
        on_generate assets p input_text
        = {| notices :=
               map FromCore
                   (map (diagnostic (files assets))
                        (filter (fun i => negb (readable (files assets) p i))
                                indices))
                 ++ [Success];
             download := Some (pdf (layout (files assets) p indices)) |})
  /\ (forall before i after,
        parse_indices input_text = inr (before ++ i :: after) ->
        (forall j, In j before -> image_raises assets p j = false) ->
        image_raises assets p i = true ->
        on_generate assets p input_text
        = {| notices :=
               map FromCore
                   (map (diagnostic (files assets))
                        (filter (fun j => negb (readable (files assets) p j))
                                before))
                 ++ [Traceback i];
             download := None |})
  /\ (forall m,
        parse_indices input_text = inl m ->
        on_generate assets p input_text
        = {| notices := [match input_text with
                         | [] => PleaseEnter
                         | _ :: _ => FromCore m
                         end];
             download := None |}).
Proof.
  split; [|split; [exact (on_generate_completed input_text)|
           split; [exact (on_generate_raised input_text)|
                   exact (on_generate_failed input_text)]]].
  split.
  - intro H. destruct (parse_indices input_text) as [m|indices] eqn:E.
    + rewrite (on_generate_failed _ _ E) in H. now destruct H.
    + exists indices. split; [reflexivity|].
      destruct (iterate_cases assets p indices (start p))
        as [[Hall _]|(before & i & after & -> & Hb & Hi & _)]; [exact Hall|].
      rewrite (on_generate_raised _ _ _ _ E Hb Hi) in H. now destruct H.
  - intros (indices & E & Hall).
    rewrite (on_generate_completed _ _ E Hall). discriminate.
Qed.

End Handler.

Lemma download_iff_parsed_witness :
  on_generate glyphs_but_five defaults (lit "_1_999")
  = {| notices := [FromCore (NotFound 999); Success];
       download := Some (pdf (layout (files glyphs_but_five) defaults
                                     [1; 999]%N)) |}
  /\ on_generate glyphs_but_five defaults (lit "_999_5_1")
     = {| notices := [FromCore (NotFound 999); Traceback 5];
          download := None |}
  /\ on_generate glyphs_but_five defaults (lit "_x")
     = {| notices := [FromCore NoValidIndices]; download := None |}.
Proof.
  destruct (download_iff_parsed glyphs_but_five defaults (lit "_1_999"))
    as (_ & Hok & _).
  destruct (download_iff_parsed glyphs_but_five defaults (lit "_999_5_1"))
    as (_ & _ & Hraise & _).
  destruct (download_iff_parsed glyphs_but_five defaults (lit "_x"))
    as (_ & _ & _ & Hfail).
  split; [|split].
  - apply (Hok [1; 999]%N eq_refl). intros i [<-|[<-|[]]]; reflexivity.
  - apply (Hraise [999]%N 5%N [1]%N eq_refl); [|reflexivity].
    intros j [<-|[]]. reflexivity.
  - exact (Hfail NoValidIndices eq_refl).
Defined.

(** ** What the sidebar guarantees *)

Section Sidebar.

Variable assets : N -> option Asset.
Variable p : LayoutParameters.




End Sidebar.

